(** * The fact store of [frontend/src/hooks/useFacts.ts]

    A shallow embedding of the [useFacts] hook: the state updater that
    [performAction] hands to [setFacts], the promise the asynchronous
    function settles with, and the no-op [refresh].  JavaScript strings are
    sequences of UTF-16 code units; [String.prototype.trim] is modelled
    after ECMA-262 (TrimString with the [WhiteSpace] and [LineTerminator]
    productions). *)

Set Warnings "-notation-overridden,-redundant-canonical-projection,-rewrite-rw".
From HB Require Import structures.
From Stdlib Require Import NArith Ascii String.
From mathcomp Require Import ssreflect ssrfun ssrbool eqtype ssrnat seq.

Set Implicit Arguments.
Unset Strict Implicit.
Unset Printing Implicit Defensive.

(** ** JavaScript strings *)

Module JSString.

(** A string value is a finite sequence of 16-bit code units. *)
Definition codeUnit := N.
Definition jsstring := seq codeUnit.

(** String literals of the source, which are all ASCII. *)
Definition lit (s : string) : jsstring :=
  [seq N_of_ascii a | a <- list_ascii_of_string s].

(** ECMA-262 [WhiteSpace] (TAB, VT, FF, ZWNBSP and the code points of
    general category Zs) together with [LineTerminator] (LF, CR, LS, PS):
    the code units that [trim] strips. *)
Definition isWhiteSpace (c : codeUnit) : bool :=
  [|| c == 0x09, c == 0x0A, c == 0x0B, c == 0x0C, c == 0x0D, c == 0x20,
      c == 0xA0, c == 0x1680, (0x2000 <=? c) && (c <=? 0x200A),
      c == 0x2028, c == 0x2029, c == 0x202F, c == 0x205F, c == 0x3000
    | c == 0xFEFF]%num.

Section Trimming.

Variables (T : Type) (ws : pred T).

(** Drop the leading run of blanks. *)
Fixpoint trimStartBy (s : seq T) : seq T :=
  if s is c :: s' then (if ws c then trimStartBy s' else s) else [::].

(** Drop the trailing run of blanks. *)
Fixpoint trimEndBy (s : seq T) : seq T :=
  if s is c :: s' then
    let r := trimEndBy s' in
    if nilp r && ws c then [::] else c :: r
  else [::].

Definition trimBy (s : seq T) : seq T := trimEndBy (trimStartBy s).

(** A sequence that does not begin (resp. end) with a blank. *)
Definition cleanFront (s : seq T) : bool :=
  if s is c :: _ then ~~ ws c else true.

Definition cleanBack (s : seq T) : bool :=
  if s is c :: s' then ~~ ws (last c s') else true.

End Trimming.

(** [String.prototype.trimStart], [trimEnd] and [trim]. *)
Definition trimStart : jsstring -> jsstring := trimStartBy isWhiteSpace.
Definition trimEnd : jsstring -> jsstring := trimEndBy isWhiteSpace.
Definition trim : jsstring -> jsstring := trimBy isWhiteSpace.

End JSString.

Import JSString.

(** ** The hook *)

Module UseFacts.

(** [FactRecord], imported by the source from [../lib/facts]: the four
    fields the hook writes.  [status] is kept as the string the source
    stores. *)
Record FactRecord := mkFactRecord {
  id : jsstring;
  text : jsstring;
  status : jsstring;
  createdAt : jsstring
}.

(** [FactAction]: [type] is the union ["save" | "discard"], [factText] is
    optional. *)
Inductive ActionType := save | discard.

Record FactAction := mkFactAction {
  type : ActionType;
  factId : jsstring;
  factText : option jsstring
}.

(** The value of [useState<FactRecord[]>([])]. *)
Definition Store := seq FactRecord.
Definition initial : Store := [::].

(** How a promise settles. *)
Inductive Settled (A : Type) :=
  | Fulfilled (value : A)
  | Rejected (reason : jsstring).
Arguments Rejected {A} reason.

(** The function passed to [setFacts].  [now] is what
    [new Date().toISOString()] evaluates to when the updater runs. *)
Definition updater (now : jsstring) (action : FactAction)
    (currentFacts : Store) : Store :=
  if type action is save then
    let text := trim (odflt [::] (factText action)) in
    if nilp text || has (fun fact => id fact == factId action) currentFacts
    then currentFacts
    else
      let newFact := {| id := factId action; text := text;
                        status := lit "saved"; createdAt := now |} in
      currentFacts ++ [:: newFact]
  else [seq fact <- currentFacts | id fact != factId action].

(** [setFacts] replaces the state by the updater's result. *)
Definition setFacts (f : Store -> Store) (facts : Store) : unit * Store :=
  (tt, f facts).

(** The asynchronous [performAction]: it calls [setFacts] and its promise
    is fulfilled with [undefined]. *)
Definition performAction (now : jsstring) (action : FactAction)
    (facts : Store) : Settled unit * Store :=
  let: (_, facts') := setFacts (updater now action) facts in
  (Fulfilled tt, facts').

(** [refresh] has an empty body. *)
Definition refresh (facts : Store) : unit * Store := (tt, facts).

(** A history of [performAction] calls, each with the clock reading its
    updater sees, applied from left to right. *)
Definition call := (jsstring * FactAction)%type.

Definition after (calls : seq call) (facts : Store) : Store :=
  foldl (fun s c => (performAction c.1 c.2 s).2) facts calls.

(** [n] successive calls of [refresh]. *)
Definition refreshes (n : nat) (facts : Store) : Store :=
  iter n (fun s => (refresh s).2) facts.

(** The two invariants of the collection. *)
Definition uniqueIds (facts : Store) : bool := uniq [seq id f | f <- facts].

Definition trimmedText (f : FactRecord) : bool :=
  ~~ nilp (text f) && (trim (text f) == text f).

Definition wellFormed (facts : Store) : bool :=
  uniqueIds facts && all trimmedText facts.

(** Two records that differ at most in [createdAt]. *)
Definition sameButClock (f g : FactRecord) : Prop :=
  [/\ id f = id g, text f = text g & status f = status g].

(** The operations that the store treats as no-ops: a save whose trimmed
    text is empty or whose id is taken, a discard of an id that is not
    there. *)
Definition invalid (action : FactAction) (facts : Store) : bool :=
  let taken := has (fun fact => id fact == factId action) facts in
  match type action with
  | save => nilp (trim (odflt [::] (factText action))) || taken
  | discard => ~~ taken
  end.

End UseFacts.

Import UseFacts.

(** ** Histories of calls *)

Module Histories.

(** A call whose action is a save. *)
Definition isSave (c : call) : bool :=
  if type c.2 is save then true else false.

(** The record [f] is what the call [c] stores when it stores: a save of the
    id of [f], whose trimmed text is the text of [f], made when the clock
    showed the [createdAt] of [f]. *)
Definition savedBy (f : FactRecord) (c : call) : bool :=
  [&& isSave c, id f == factId c.2,
      text f == trim (odflt [::] (factText c.2)),
      status f == lit "saved" & createdAt f == c.1].


End Histories.

Import Histories.

(** ** Trimming *)

Section TrimFacts.

Variables (T : Type) (ws : pred T).

Local Abbreviation trimStartBy := (trimStartBy ws).
Local Abbreviation trimEndBy := (trimEndBy ws).
Local Abbreviation trimBy := (trimBy ws).
Local Abbreviation cleanFront := (cleanFront ws).
Local Abbreviation cleanBack := (cleanBack ws).

Lemma trimStartBy_split s : exists2 l, s = l ++ trimStartBy s & all ws l.
Proof.
elim: s => [|c s [l eq_s ws_l]] /=; first by exists [::].
case ws_c: (ws c); last by exists [::].
by exists (c :: l); rewrite /= ?ws_c // -eq_s.
Qed.

Lemma trimEndBy_split s : exists2 r, s = trimEndBy s ++ r & all ws r.
Proof.
elim: s => [|c s [r eq_s ws_r]] /=; first by exists [::].
case: ifP => [/andP[/nilP r0 ws_c]|_]; last by exists r; rewrite //= -eq_s.
by exists (c :: r); rewrite /= ?ws_c // {1}eq_s r0.
Qed.

Lemma trimStartBy_front s : cleanFront (trimStartBy s).
Proof. by elim: s => [|c s IHs] //=; case: ifP => //= ->. Qed.

Lemma trimEndBy_back s : cleanBack (trimEndBy s).
Proof.
elim: s => [|c s] //=; case: (trimEndBy s) => [|d r] //= IHs.
by case: ifP => //= ->.
Qed.

Lemma trimStartBy_id s : cleanFront s -> trimStartBy s = s.
Proof. by case: s => [|c s] //= /negPf ->. Qed.

Lemma trimEndBy_front s : cleanFront s -> cleanFront (trimEndBy s).
Proof. by case: s => [|c s] //= nws_c; rewrite (negPf nws_c) andbF. Qed.

Lemma trimEndBy_idem s : trimEndBy (trimEndBy s) = trimEndBy s.
Proof.
elim: s => [|c s IHs] //=; case: ifP => //= blank.
by rewrite IHs blank.
Qed.

Lemma trimBy_idem s : trimBy (trimBy s) = trimBy s.
Proof.
rewrite /trimBy (@trimStartBy_id (trimEndBy _)) ?trimEndBy_idem //.
exact/trimEndBy_front/trimStartBy_front.
Qed.

(** [trimBy] removes a run of blanks at each end and nothing else; what is
    left neither begins nor ends with a blank. *)
Lemma trimBy_split s :
  exists l r, [/\ s = l ++ trimBy s ++ r, all ws l, all ws r,
                  cleanFront (trimBy s) & cleanBack (trimBy s)].
Proof.
have [l eq_s ws_l] := trimStartBy_split s.
have [r eq_t ws_r] := trimEndBy_split (trimStartBy s).
exists l, r; split=> //; first by rewrite /trimBy -eq_t.
- exact/trimEndBy_front/trimStartBy_front.
- exact: trimEndBy_back.
Qed.

End TrimFacts.

Lemma trim_idem s : trim (trim s) = trim s.
Proof. exact: trimBy_idem. Qed.

Example trim_hello : trim (lit " hello ") = lit "hello".
Proof. by vm_compute. Qed.

Example trim_blank : trim (lit "   ") = [::].
Proof. by vm_compute. Qed.

Example trim_unicode :
  trim ([:: 0xFEFF; 0x0A] ++ lit "a b" ++ [:: 0x3000; 0x2029])%num = lit "a b".
Proof. by vm_compute. Qed.

Example trim_keeps_zwsp : trim [:: 0x200B]%num = [:: 0x200B]%num.
Proof. by vm_compute. Qed.

(** ** The updater *)

Section StoreFacts.

Implicit Types (now factId : jsstring) (factText : option jsstring).
Implicit Types (action : FactAction) (facts : Store) (fact : FactRecord).

(** [!text] on a string tests for the empty string. *)
Lemma nilp_empty (s : jsstring) : nilp s = (s == [::]).
Proof. by case: s. Qed.

(** The test of the source, read on the list of ids. *)
Lemma has_id factId facts :
  has (fun fact => id fact == factId) facts =
  (factId \in [seq id fact | fact <- facts]).
Proof. by rewrite -has_pred1 has_map. Qed.

Lemma performAction_updater now action facts :
  performAction now action facts = (Fulfilled tt, updater now action facts).
Proof. by []. Qed.

Lemma after_cons now action (calls : seq call) facts :
  after ((now, action) :: calls) facts = after calls (updater now action facts).
Proof. by []. Qed.

Lemma updater_save now factId factText facts :
  updater now (mkFactAction save factId factText) facts =
  let text := trim (odflt [::] factText) in
  if nilp text || has (fun fact => id fact == factId) facts then facts
  else rcons facts (mkFactRecord factId text (lit "saved") now).
Proof. by rewrite /updater /=; case: ifP => // _; rewrite cats1. Qed.

Lemma updater_discard now factId factText facts :
  updater now (mkFactAction discard factId factText) facts =
  [seq fact <- facts | id fact != factId].
Proof. by []. Qed.

Lemma ids_discard factId facts :
  [seq id fact | fact <- facts & id fact != factId] =
  [seq i <- [seq id fact | fact <- facts] | i != factId].
Proof. by rewrite filter_map. Qed.

Lemma discard_missing factId facts :
  ~~ has (fun fact => id fact == factId) facts ->
  [seq fact <- facts | id fact != factId] = facts.
Proof. by rewrite -all_predC => /all_filterP. Qed.

Lemma discard_clears factId facts :
  ~~ has (fun fact => id fact == factId) [seq fact <- facts | id fact != factId].
Proof.
by rewrite has_id ids_discard mem_filter eqxx.
Qed.

End StoreFacts.

(** ** Saving *)

Section Save.

Implicit Types (now factId factText : jsstring) (facts : Store).

(** C1. Saving an id that the collection does not hold, with a text whose
    trimmed value is not empty, fulfils the promise and yields the old
    collection followed by exactly one new record: its id is [factId], its
    text the trimmed [factText], its status ["saved"].  The records that were
    there are the prefix of the result, unchanged. *)
Theorem save_appends now factId factText facts :
  ~~ has (fun fact => id fact == factId) facts ->
  trim factText != [::] ->
  performAction now (mkFactAction save factId (Some factText)) facts =
  (Fulfilled tt,
   rcons facts {| id := factId; text := trim factText;
                  status := lit "saved"; createdAt := now |}).
Proof.
move=> /negPf fresh; rewrite -nilp_empty => /negPf text_ok.
by rewrite performAction_updater updater_save /= text_ok fresh.
Qed.

Lemma save_appends_witness :
  [/\ ~~ has (fun fact => id fact == lit "a") initial,
      trim (lit " hello ") != [::]
    & performAction (lit "2026-01-01T00:00:00.000Z")
        (mkFactAction save (lit "a") (Some (lit " hello "))) initial =
      (Fulfilled tt,
       [:: {| id := lit "a"; text := lit "hello"; status := lit "saved";
              createdAt := lit "2026-01-01T00:00:00.000Z" |}])].
Proof.
split; [by [] | by vm_compute | ].
exact: (@save_appends (lit "2026-01-01T00:00:00.000Z") (lit "a")
          (lit " hello ") initial).
Defined.

(** C2. A save whose trimmed text is empty (an absent [factText] counts as
    the empty string), or whose id is already held, fulfils the promise and
    leaves the collection as it was.  In particular, from the empty
    collection, a save that stores [factText'] followed by a save of the
    same id with any other text leaves one record, holding the first text. *)
Theorem save_rejected now now' factId (factText : option jsstring) factText'
    facts :
  (nilp (trim (odflt [::] factText))
     || has (fun fact => id fact == factId) facts ->
   performAction now (mkFactAction save factId factText) facts =
   (Fulfilled tt, facts))
  /\
  (trim factText' != [::] ->
   after [:: (now', mkFactAction save factId (Some factText'));
             (now, mkFactAction save factId factText)] initial =
   [:: {| id := factId; text := trim factText';
          status := lit "saved"; createdAt := now' |}]).
Proof.
split=> [noop |]; last rewrite -nilp_empty => /negPf text_ok.
  by rewrite performAction_updater updater_save /= noop.
by rewrite !after_cons !updater_save /= text_ok /= eqxx orbT.
Qed.

Lemma save_rejected_witness :
  [/\ nilp (trim (odflt [::] (Some (lit "second"))))
        || has (fun fact => id fact == lit "a")
             [:: mkFactRecord (lit "a") (lit "first") (lit "saved") (lit "t0")],
      trim (lit "first") != [::],
      performAction (lit "t1")
        (mkFactAction save (lit "a") (Some (lit "second")))
        [:: mkFactRecord (lit "a") (lit "first") (lit "saved") (lit "t0")] =
      (Fulfilled tt,
       [:: mkFactRecord (lit "a") (lit "first") (lit "saved") (lit "t0")])
    & after [:: (lit "t0", mkFactAction save (lit "a") (Some (lit "first")));
                (lit "t1", mkFactAction save (lit "a") (Some (lit "second")))]
        initial =
      [:: mkFactRecord (lit "a") (lit "first") (lit "saved") (lit "t0")]].
Proof.
have [noop twice] :=
  @save_rejected (lit "t1") (lit "t0") (lit "a") (Some (lit "second"))
    (lit "first")
    [:: mkFactRecord (lit "a") (lit "first") (lit "saved") (lit "t0")].
split; [by vm_compute | by vm_compute | exact: noop | exact: twice].
Defined.

End Save.

(** ** Discarding *)

Section Discard.

Implicit Types (now factId : jsstring) (factText : option jsstring).
Implicit Types (facts : Store).

(** C3. When ids are unique and some record has id [factId], the collection
    is [s1 ++ fact :: s2] with [fact] that record, and discarding [factId]
    fulfils the promise and yields [s1 ++ s2]: no record with that id is
    left, the length drops by exactly one, and the other records are
    unchanged and in the same order. *)
Theorem discard_removes now factId factText facts :
  uniqueIds facts ->
  has (fun fact => id fact == factId) facts ->
  exists s1 fact s2,
    [/\ facts = s1 ++ fact :: s2, id fact = factId,
        performAction now (mkFactAction discard factId factText) facts =
        (Fulfilled tt, s1 ++ s2),
        ~~ has (fun fact => id fact == factId) (s1 ++ s2)
      & (size (s1 ++ s2)).+1 = size facts].
Proof.
rewrite performAction_updater updater_discard /uniqueIds.
elim: facts => [|x s IHs] //= /andP[x_new uniq_s].
have [id_x _ | id_x /= held] := eqVneq (id x) factId.
  have gone: ~~ has (fun fact => id fact == factId) s by rewrite has_id -id_x.
  by exists [::], x, s; rewrite discard_missing.
have [s1 [fact [s2 [eq_s id_fact [eq_r] gone size_r]]]] := IHs uniq_s held.
exists (x :: s1), fact, s2; rewrite /= eq_r (negPf id_x) size_r.
by split; rewrite // eq_s.
Qed.

Lemma discard_removes_witness :
  let a := mkFactRecord (lit "a") (lit "x") (lit "saved") (lit "t0") in
  let b := mkFactRecord (lit "b") (lit "y") (lit "saved") (lit "t1") in
  [/\ uniqueIds [:: a; b], has (fun fact => id fact == lit "a") [:: a; b]
    & exists s1 fact s2,
        [/\ [:: a; b] = s1 ++ fact :: s2, id fact = lit "a",
            performAction (lit "t2") (mkFactAction discard (lit "a") None)
              [:: a; b] = (Fulfilled tt, s1 ++ s2),
            ~~ has (fun fact => id fact == lit "a") (s1 ++ s2)
          & (size (s1 ++ s2)).+1 = size [:: a; b]]].
Proof.
move=> a b; split; [by vm_compute | by vm_compute | ].
by apply: (@discard_removes (lit "t2") (lit "a") None [:: a; b]);
   vm_compute.
Defined.

(** C4. Discarding an id that no record has fulfils the promise and leaves
    the collection as it was. *)
Theorem discard_unknown now factId factText facts :
  ~~ has (fun fact => id fact == factId) facts ->
  performAction now (mkFactAction discard factId factText) facts =
  (Fulfilled tt, facts).
Proof.
by move=> missing; rewrite performAction_updater updater_discard
                           discard_missing.
Qed.

Lemma discard_unknown_witness :
  let a := mkFactRecord (lit "a") (lit "x") (lit "saved") (lit "t0") in
  ~~ has (fun fact => id fact == lit "zz") [:: a; a] /\
  performAction (lit "t2") (mkFactAction discard (lit "zz") None) [:: a; a] =
  (Fulfilled tt, [:: a; a]).
Proof.
move=> a; split; first by vm_compute.
by apply: (@discard_unknown (lit "t2") (lit "zz") None [:: a; a]); vm_compute.
Defined.

(** C9. Whatever the collection, also one in which several records share an
    id, discarding [factId] removes every record with that id. *)
Theorem discard_all now factId factText facts :
  ~~ has (fun fact => id fact == factId)
       (performAction now (mkFactAction discard factId factText) facts).2.
Proof. by rewrite performAction_updater /= discard_clears. Qed.

End Discard.

(** ** Invariants of the collection *)

Section Invariants.

Implicit Types (now : jsstring) (action : FactAction) (facts : Store).

Lemma all_discard (a : pred FactRecord) factId facts :
  all a facts -> all a [seq fact <- facts | id fact != factId].
Proof.
by elim: facts => [|x s IHs] //= /andP[a_x /IHs a_s]; case: ifP; rewrite /= ?a_x.
Qed.

Lemma updater_wellFormed now action facts :
  wellFormed facts -> wellFormed (updater now action facts).
Proof.
rewrite /wellFormed /uniqueIds.
case: action => [[] factId factText] /andP[uniq_facts trimmed].
  rewrite updater_save /=; case: ifP => [_|/negbT]; first exact/andP.
  rewrite negb_or has_id => /andP[text_ok fresh].
  rewrite map_rcons rcons_uniq all_rcons /= fresh uniq_facts trimmed.
  by rewrite /trimmedText /= text_ok trim_idem eqxx.
by rewrite updater_discard ids_discard filter_uniq // all_discard.
Qed.

Lemma after_wellFormed (calls : seq call) facts :
  wellFormed facts -> wellFormed (after calls facts).
Proof.
elim: calls facts => [|[now action] calls IHcalls] facts wf_facts //.
by rewrite after_cons; apply/IHcalls/updater_wellFormed.
Qed.

(** C5. Whatever the calls of [performAction] made from the empty
    collection, and whatever the clock shows at each of them, the collection
    they lead to holds no two records with the same id, and the text of each
    of its records is non-empty and is its own trimmed value. *)
Theorem reachable_wellFormed (calls : seq call) :
  uniqueIds (after calls initial) /\
  all (fun fact => (text fact != [::]) && (trim (text fact) == text fact))
      (after calls initial).
Proof.
have /andP[uniq_r trimmed] := @after_wellFormed calls initial isT.
split=> //; apply: sub_all trimmed => fact.
by rewrite /trimmedText nilp_empty.
Qed.

End Invariants.

(** ** Order of the records *)

(** Records are compared field by field. *)
Definition tuple_of_fact (f : FactRecord) :=
  (id f, text f, status f, createdAt f).

Definition fact_of_tuple (t : jsstring * jsstring * jsstring * jsstring) :=
  let: (i, x, st, c) := t in mkFactRecord i x st c.

Lemma tuple_of_factK : cancel tuple_of_fact fact_of_tuple.
Proof. by case. Qed.

HB.instance Definition _ := Equality.copy FactRecord (can_type tuple_of_factK).

Section Order.

Implicit Types (a b c ta tb tc na nb nc nd : jsstring).
Implicit Types (td : option jsstring).

(** C6. From the empty collection, saving three pairwise distinct ids [a],
    [b], [c], each with a text that is not empty once trimmed, yields their
    records in that order, and discarding [b] then leaves the records of [a]
    and [c], in that order.  In general a save yields the collection it
    started from followed by at most one record, and a discard yields a
    subsequence of the collection it started from. *)
Theorem insertion_order a b c ta tb tc td na nb nc nd :
  uniq [:: a; b; c] ->
  trim ta != [::] -> trim tb != [::] -> trim tc != [::] ->
  let fa := mkFactRecord a (trim ta) (lit "saved") na in
  let fb := mkFactRecord b (trim tb) (lit "saved") nb in
  let fc := mkFactRecord c (trim tc) (lit "saved") nc in
  let saves := [:: (na, mkFactAction save a (Some ta));
                   (nb, mkFactAction save b (Some tb));
                   (nc, mkFactAction save c (Some tc))] in
  [/\ after saves initial = [:: fa; fb; fc],
      after (rcons saves (nd, mkFactAction discard b td)) initial = [:: fa; fc],
      forall now factId factText facts,
        exists2 new,
          (performAction now (mkFactAction save factId factText) facts).2 =
          facts ++ new & size new <= 1
    & forall now factId factText facts,
        subseq (performAction now (mkFactAction discard factId factText)
                  facts).2 facts].
Proof.
rewrite [uniq _]/= !inE negb_or -!nilp_empty.
move=> /and3P[/andP[/negPf ab /negPf ac] /negPf bc _].
move=> /negPf ta_ok /negPf tb_ok /negPf tc_ok fa fb fc saves.
have ba: (b == a) = false by rewrite eq_sym.
have cb: (c == b) = false by rewrite eq_sym.
split.
- rewrite !after_cons !updater_save /= ta_ok /= tb_ok /= ab /=.
  by rewrite tc_ok /= ac bc.
- rewrite !after_cons !updater_save /= ta_ok /= tb_ok /= ab /=.
  by rewrite tc_ok /= ac bc /= updater_discard /= ab eqxx cb.
- move=> now factId factText facts; rewrite performAction_updater.
  rewrite updater_save /=; case: ifP => _; first by exists [::]; rewrite ?cats0.
  by eexists; first by rewrite -cats1.
- move=> now factId factText facts; rewrite performAction_updater /=.
  exact: filter_subseq.
Qed.

Lemma insertion_order_witness :
  let fa := mkFactRecord (lit "a") (lit "x") (lit "saved") (lit "t1") in
  let fb := mkFactRecord (lit "b") (lit "y") (lit "saved") (lit "t2") in
  let fc := mkFactRecord (lit "c") (lit "z") (lit "saved") (lit "t3") in
  let saves := [:: (lit "t1", mkFactAction save (lit "a") (Some (lit "x ")));
                   (lit "t2", mkFactAction save (lit "b") (Some (lit " y")));
                   (lit "t3", mkFactAction save (lit "c") (Some (lit "z")))] in
  [/\ uniq [:: lit "a"; lit "b"; lit "c"],
      [&& trim (lit "x ") != [::], trim (lit " y") != [::]
        & trim (lit "z") != [::]],
      after saves initial = [:: fa; fb; fc]
    & after (rcons saves (lit "t4", mkFactAction discard (lit "b") None))
        initial = [:: fa; fc]].
Proof.
have [] := @insertion_order (lit "a") (lit "b") (lit "c") (lit "x ")
             (lit " y") (lit "z") None (lit "t1") (lit "t2") (lit "t3")
             (lit "t4");
  [by vm_compute | by vm_compute | by vm_compute | by vm_compute |].
by move=> saved discarded _ _; split; [vm_compute | vm_compute | |].
Defined.

End Order.

(** ** Refresh, completion and the clock *)

Section Contract.

Implicit Types (now : jsstring) (action : FactAction) (facts : Store).

(** C7. However often [refresh] is called, the collection after the calls
    is the collection before them; a single call returns nothing and hands
    the collection back as it got it. *)
Theorem refresh_noop (n : nat) facts :
  refreshes n facts = facts /\ refresh facts = (tt, facts).
Proof. by split=> //; apply: iter_fix. Qed.

(** C8. For every collection and every action, [performAction] settles as
    fulfilled and never as rejected; an action that the store counts as
    invalid (empty trimmed text or taken id on a save, missing id on a
    discard) leaves the collection as it was. *)
Theorem performAction_fulfils now action facts :
  exists facts',
    [/\ performAction now action facts = (Fulfilled tt, facts'),
        forall reason, (performAction now action facts).1 <> Rejected reason
      & invalid action facts -> facts' = facts].
Proof.
exists (updater now action facts); split=> //.
case: action => [[] factId factText]; rewrite /invalid /=.
  by rewrite updater_save /= => ->.
exact: discard_missing.
Qed.

Lemma performAction_fulfils_witness :
  let action := mkFactAction save (lit "a") None in
  invalid action initial /\
  exists facts',
    [/\ performAction (lit "t0") action initial = (Fulfilled tt, facts'),
        forall reason,
          (performAction (lit "t0") action initial).1 <> Rejected reason
      & facts' = initial].
Proof.
move=> action; split; first by vm_compute.
have [facts' [settled not_rejected noop]] :=
  @performAction_fulfils (lit "t0") action initial.
by exists facts'; split=> //; apply: noop; vm_compute.
Defined.

(** C10. Two runs of the same action on the same collection, under any two
    clock readings, settle alike, and their collections agree on the id,
    text and status of every record in order: either the collections are
    equal, or each is the collection they started from followed by one new
    record, and the two new records differ at most in [createdAt], which is
    the clock reading of the run. *)
Theorem deterministic_upto_clock now1 now2 action facts :
  let run1 := performAction now1 action facts in
  let run2 := performAction now2 action facts in
  [/\ run1.1 = run2.1,
      [seq (id f, text f, status f) | f <- run1.2] =
      [seq (id f, text f, status f) | f <- run2.2]
    & run1.2 = run2.2 \/
      exists new1 new2,
        [/\ run1.2 = rcons facts new1, run2.2 = rcons facts new2,
            sameButClock new1 new2, createdAt new1 = now1
          & createdAt new2 = now2]].
Proof.
rewrite !performAction_updater /=.
case: action => [[] factId factText]; last by split=> //; left.
rewrite !updater_save /=; case: ifP => _; first by split=> //; left.
split=> //; first by rewrite !map_rcons.
by right; do 2!eexists; split.
Qed.

End Contract.

(** ** What a save stores *)

Section Blank.

Variables (T : Type) (ws : pred T).

(** Trimming leaves nothing exactly when every element is a blank. *)
Lemma nilp_trimBy s : nilp (trimBy ws s) = all ws s.
Proof.
have [l eq_s ws_l] := trimStartBy_split ws s.
rewrite [in RHS]eq_s all_cat ws_l /= /trimBy.
have := trimStartBy_front ws s; case: (trimStartBy ws s) => [|c t] //= nws_c.
by rewrite (negPf nws_c) andbF.
Qed.

End Blank.

Lemma nilp_trim s : nilp (trim s) = all isWhiteSpace s.
Proof. exact: nilp_trimBy. Qed.

Lemma rcons_neq (T : eqType) (s : seq T) x : (rcons s x == s) = false.
Proof.
apply/negP => /eqP/(congr1 size)/eqP.
by rewrite size_rcons -[X in _ == X]addn0 -addn1 eqn_add2l.
Qed.

Section Stored.

Implicit Types (now factId factText : jsstring) (facts : Store).

(** X1. A save whose text consists of white space and line terminators
    only (also the non-ASCII ones that [trim] strips) stores nothing,
    whether the id is held or not. *)
Theorem save_blank now factId factText facts :
  all isWhiteSpace factText ->
  performAction now (mkFactAction save factId (Some factText)) facts =
  (Fulfilled tt, facts).
Proof.
by move=> blank; rewrite performAction_updater updater_save /= nilp_trim blank.
Qed.

Lemma save_blank_witness :
  let blank := [:: 0x09; 0x20; 0xA0; 0x0A; 0x2028; 0x3000; 0xFEFF]%num in
  all isWhiteSpace blank /\
  performAction (lit "t0") (mkFactAction save (lit "a") (Some blank)) initial =
  (Fulfilled tt, initial).
Proof.
move=> blank; split; first by vm_compute.
by apply: (@save_blank (lit "t0") (lit "a") blank initial); vm_compute.
Defined.

(** X2. When the id is not held and the text has a code unit that is not
    white space, the stored text [t] is the given text without a run of
    white space at its start and one at its end: it is not empty, it keeps
    what lies between, and it neither begins nor ends with white space. *)
Theorem save_text_shape now factId factText facts :
  ~~ has (fun fact => id fact == factId) facts ->
  ~~ all isWhiteSpace factText ->
  exists l t r,
    [/\ factText = l ++ t ++ r, all isWhiteSpace l && all isWhiteSpace r,
        t != [::], cleanFront isWhiteSpace t && cleanBack isWhiteSpace t
      & performAction now (mkFactAction save factId (Some factText)) facts =
        (Fulfilled tt, rcons facts (mkFactRecord factId t (lit "saved") now))].
Proof.
move=> /negPf fresh; rewrite -nilp_trim => text_ok.
have [l [r [eq_text ws_l ws_r front back]]] := trimBy_split isWhiteSpace factText.
exists l, (trim factText), r; split=> //; first by rewrite ws_l.
- by rewrite -nilp_empty.
- by rewrite /trim front.
- by rewrite performAction_updater updater_save /= (negPf text_ok) fresh.
Qed.

Lemma save_text_shape_witness :
  let given := [:: 0xA0; 0x20]%num ++ lit "a  b" ++ [:: 0x0A]%num in
  [/\ ~~ has (fun fact => id fact == lit "a") initial,
      ~~ all isWhiteSpace given
    & exists l t r,
        [/\ given = l ++ t ++ r, all isWhiteSpace l && all isWhiteSpace r,
            t != [::], cleanFront isWhiteSpace t && cleanBack isWhiteSpace t
          & performAction (lit "t0")
              (mkFactAction save (lit "a") (Some given)) initial =
            (Fulfilled tt,
             rcons initial (mkFactRecord (lit "a") t (lit "saved") (lit "t0")))]].
Proof.
move=> given; split; [by vm_compute | by vm_compute | ].
by apply: (@save_text_shape (lit "t0") (lit "a") given initial); vm_compute.
Defined.

(** X3. After a save whose text is not all white space, the collection
    holds a record with the saved id, stored now or held before; when ids
    were unique it holds exactly one. *)
Theorem save_then_held now factId factText facts :
  ~~ all isWhiteSpace factText ->
  let facts' :=
    (performAction now (mkFactAction save factId (Some factText)) facts).2 in
  has (fun fact => id fact == factId) facts' /\
  (uniqueIds facts -> count (fun fact => id fact == factId) facts' = 1).
Proof.
rewrite -nilp_trim performAction_updater updater_save /= => /negPf -> /=.
set facts' := if _ then _ else _.
have held: has (fun fact => id fact == factId) facts'.
  by rewrite /facts'; case: ifP => // _; rewrite has_rcons /= eqxx.
split=> // uniq_facts.
have uniq': uniq [seq id fact | fact <- facts'].
  rewrite /facts'; case: ifP => // /negbT.
  by rewrite has_id map_rcons rcons_uniq /= => ->.
have ->: count (fun fact => id fact == factId) facts' =
         count_mem factId [seq id fact | fact <- facts'] by rewrite count_map.
by rewrite (count_uniq_mem _ uniq') -has_id held.
Qed.

Lemma save_then_held_witness :
  let a := mkFactRecord (lit "a") (lit "x") (lit "saved") (lit "t0") in
  let facts' :=
    (performAction (lit "t1") (mkFactAction save (lit "b") (Some (lit " y")))
       [:: a]).2 in
  [/\ ~~ all isWhiteSpace (lit " y"), uniqueIds [:: a],
      has (fun fact => id fact == lit "b") facts'
    & count (fun fact => id fact == lit "b") facts' = 1].
Proof.
move=> a facts'.
have [] := @save_then_held (lit "t1") (lit "b") (lit " y") [:: a];
  first by vm_compute.
by move=> held one; split; [vm_compute | vm_compute | | apply: one; vm_compute].
Defined.

End Stored.

(** ** How calls compose *)

Section Composition.

Implicit Types (now : jsstring) (factText : option jsstring).
Implicit Types (action : FactAction) (facts : Store).

Lemma has_discard_other (i j : jsstring) facts :
  i != j ->
  has (fun fact => id fact == i) [seq fact <- facts | id fact != j] =
  has (fun fact => id fact == i) facts.
Proof. by move=> i_j; rewrite !has_id ids_discard mem_filter i_j. Qed.

(** X4. Making the same call twice in a row gives what making it once
    gives, whatever the action, the collection and the two clock readings;
    the collection is the one of the first call. *)
Theorem performAction_twice now1 now2 action facts :
  after [:: (now1, action); (now2, action)] facts =
  after [:: (now1, action)] facts.
Proof.
rewrite !after_cons; case: action => [[] factId factText] /=;
  last by rewrite !updater_discard filter_id.
rewrite [updater now1 _ _]updater_save /=; case: ifP => [noop|/norP[text_ok _]].
  by rewrite updater_save /= noop.
by rewrite updater_save /= has_rcons /= eqxx orbT.
Qed.

(** X5. Saving an id that is not held and then discarding it gives back the
    collection as it was, whatever the text: if the save stored a record the
    discard removes it, if it did not the discard finds nothing. *)
Theorem save_then_discard now1 now2 factId factText1 factText2 facts :
  ~~ has (fun fact => id fact == factId) facts ->
  after [:: (now1, mkFactAction save factId factText1);
            (now2, mkFactAction discard factId factText2)] facts = facts.
Proof.
move=> fresh; rewrite !after_cons updater_save updater_discard /=.
case: ifP => _; first exact: discard_missing.
by rewrite filter_rcons /= eqxx /= discard_missing.
Qed.

Lemma save_then_discard_witness :
  let b := mkFactRecord (lit "b") (lit "y") (lit "saved") (lit "t0") in
  ~~ has (fun fact => id fact == lit "a") [:: b] /\
  after [:: (lit "t1", mkFactAction save (lit "a") (Some (lit "x")));
            (lit "t2", mkFactAction discard (lit "a") None)] [:: b] = [:: b].
Proof.
move=> b; split; first by vm_compute.
by apply: (@save_then_discard (lit "t1") (lit "t2") (lit "a") (Some (lit "x"))
             None [:: b]); vm_compute.
Defined.

(** X6. A discard followed by a save of the same id with a text that is not
    all white space always stores: the result is the collection without the
    records of that id, followed by the new record.  This holds also when
    the id was held, so the pair replaces the record and moves it to the
    end. *)
Theorem discard_then_save now1 now2 factId factText1 (factText2 : jsstring)
    facts :
  ~~ all isWhiteSpace factText2 ->
  after [:: (now1, mkFactAction discard factId factText1);
            (now2, mkFactAction save factId (Some factText2))] facts =
  rcons [seq fact <- facts | id fact != factId]
        (mkFactRecord factId (trim factText2) (lit "saved") now2).
Proof.
rewrite -nilp_trim !after_cons updater_discard updater_save /= => /negPf ->.
by rewrite (negPf (discard_clears _ _)).
Qed.

Lemma discard_then_save_witness :
  let a := mkFactRecord (lit "a") (lit "old") (lit "saved") (lit "t0") in
  let b := mkFactRecord (lit "b") (lit "y") (lit "saved") (lit "t1") in
  ~~ all isWhiteSpace (lit " new ") /\
  after [:: (lit "t2", mkFactAction discard (lit "a") None);
            (lit "t3", mkFactAction save (lit "a") (Some (lit " new ")))]
    [:: a; b] =
  [:: b; mkFactRecord (lit "a") (lit "new") (lit "saved") (lit "t3")].
Proof.
move=> a b; split; first by vm_compute.
by rewrite (@discard_then_save (lit "t2") (lit "t3") (lit "a") None
              (lit " new ") [:: a; b]); vm_compute.
Defined.

(** X7. A discard commutes with any call on another id: the two calls, each
    with its own clock reading, give the same collection in either order. *)
Theorem discard_commutes now1 now2 action factId factText facts :
  UseFacts.factId action != factId ->
  after [:: (now1, action); (now2, mkFactAction discard factId factText)]
    facts =
  after [:: (now2, mkFactAction discard factId factText); (now1, action)]
    facts.
Proof.
rewrite !after_cons updater_discard.
case: action => [[] factId' factText'] /= other; last first.
  rewrite !updater_discard -!filter_predI; apply: eq_filter => fact /=.
  exact: andbC.
rewrite !updater_save /= has_discard_other //.
by case: ifP => // _; rewrite filter_rcons /= other.
Qed.

Lemma discard_commutes_witness :
  let a := mkFactRecord (lit "a") (lit "x") (lit "saved") (lit "t0") in
  let save_b := mkFactAction save (lit "b") (Some (lit "y")) in
  let discard_a := mkFactAction discard (lit "a") None in
  UseFacts.factId save_b != lit "a" /\
  after [:: (lit "t1", save_b); (lit "t2", discard_a)] [:: a] =
  after [:: (lit "t2", discard_a); (lit "t1", save_b)] [:: a].
Proof.
move=> a save_b discard_a; split; first by vm_compute.
by apply: (@discard_commutes (lit "t1") (lit "t2") save_b (lit "a") None
             [:: a]); vm_compute.
Defined.

(** X8. A call leaves the collection as it was exactly when its action is
    one of the three that the store ignores: a save with empty trimmed text,
    a save of an id that is held, a discard of an id that is not held.
    Every other call changes the collection. *)
Theorem unchanged_iff_invalid now action facts :
  ((performAction now action facts).2 == facts) = invalid action facts.
Proof.
rewrite performAction_updater /invalid /=.
case: action => [[] factId factText] /=.
  by rewrite updater_save /=; case: ifP => _; rewrite ?eqxx ?rcons_neq.
by rewrite updater_discard -all_predC; apply/eqP/all_filterP.
Qed.

(** X9. A discard removes as many records as have the id: the length of the
    result and the number of records with that id add up to the length
    before, also when several records share the id. *)
Theorem discard_size now factId factText facts :
  size (performAction now (mkFactAction discard factId factText) facts).2
  + count (fun fact => id fact == factId) facts = size facts.
Proof.
rewrite performAction_updater /= updater_discard size_filter addnC.
exact: count_predC.
Qed.

End Composition.

(** ** What histories reach *)

Section Reach.

Implicit Types (now : jsstring) (action : FactAction) (facts : Store).
Implicit Types (calls : seq call).

Lemma after_rcons calls now action facts :
  after (rcons calls (now, action)) facts =
  updater now action (after calls facts).
Proof. by rewrite /after foldl_rcons. Qed.

Lemma updater_size now action facts :
  size (updater now action facts) <= size facts + isSave (now, action).
Proof.
case: action => [[] factId factText]; rewrite /isSave /=.
  rewrite updater_save /=; case: ifP => _; first exact: leq_addr.
  by rewrite size_rcons addn1.
by rewrite updater_discard addn0 size_filter count_size.
Qed.

(** X10. A history adds at most one record per save in it: the length it
    leads to is at most the length it starts from plus the number of its
    saves; from the empty collection, at most the number of saves. *)
Theorem after_size calls facts :
  size (after calls facts) <= size facts + count isSave calls.
Proof.
elim: calls facts => [|[now action] calls IHcalls] facts.
  by rewrite /= addn0.
rewrite after_cons; apply: leq_trans (IHcalls _) _.
by rewrite [count _ _]/= addnA leq_add2r updater_size.
Qed.

(** X11. Every record of a collection reached from the empty one was
    written by a save of the history: some call in it is a save of the
    record's id, its trimmed text is the record's text, the clock reading at
    that call is the record's [createdAt], and the status is ["saved"]. *)
Theorem reachable_savedBy calls :
  all (fun fact => has (savedBy fact) calls) (after calls initial).
Proof.
elim/last_ind: calls => [|calls [now action] IHcalls] //.
rewrite after_rcons.
have {IHcalls} : all (fun fact => has (savedBy fact) (rcons calls (now, action)))
                    (after calls initial).
  by apply: sub_all IHcalls => fact held; rewrite has_rcons held orbT.
move: (after calls initial) => facts kept.
case: action kept => [[] factId factText] kept; last exact: all_discard.
rewrite updater_save /=; case: ifP => // _.
by rewrite all_rcons kept has_rcons /savedBy /isSave /= !eqxx.
Qed.



End Reach.

(** ** Saves of different ids *)

Section TwoSaves.

Implicit Types (now : jsstring) (factText : option jsstring) (facts : Store).

Lemma has_save_other now (i j : jsstring) factText facts :
  i != j ->
  has (fun fact => id fact == i)
      (updater now (mkFactAction save j factText) facts) =
  has (fun fact => id fact == i) facts.
Proof.
move=> i_j; rewrite updater_save /=; case: ifP => // _.
by rewrite has_rcons /= eq_sym (negPf i_j).
Qed.

(** X13. Two saves of different ids do not interfere: the two orders of
    the calls lead to the same records, up to the order in which the records
    they append stand at the end; the collections are permutations of each
    other. *)
Theorem saves_permute now1 now2 factId1 factId2 factText1 factText2 facts :
  factId1 != factId2 ->
  perm_eq
    (after [:: (now1, mkFactAction save factId1 factText1);
               (now2, mkFactAction save factId2 factText2)] facts)
    (after [:: (now2, mkFactAction save factId2 factText2);
               (now1, mkFactAction save factId1 factText1)] facts).
Proof.
move=> ids; have ids' : factId2 != factId1 by rewrite eq_sym.
rewrite !after_cons.
rewrite [updater now2 _ (updater _ _ _)]updater_save.
rewrite [updater now1 _ (updater _ _ _)]updater_save /= !has_save_other //.
rewrite !updater_save /=; do 2![case: ifP => _ //].
by rewrite -!cats1 -!catA perm_cat2l /= (perm_catC [:: _] [:: _]).
Qed.

Lemma saves_permute_witness :
  let a := mkFactAction save (lit "a") (Some (lit "x")) in
  let b := mkFactAction save (lit "b") (Some (lit "y")) in
  lit "a" != lit "b" /\
  perm_eq (after [:: (lit "t1", a); (lit "t2", b)] initial)
          (after [:: (lit "t2", b); (lit "t1", a)] initial).
Proof.
move=> a b; split; first by vm_compute.
by apply: (@saves_permute (lit "t1") (lit "t2") (lit "a") (lit "b")
             (Some (lit "x")) (Some (lit "y")) initial); vm_compute.
Defined.

End TwoSaves.
